(** * wrpc: the generated client stub [Hello]

    A shallow embedding of
    [examples/go/hello-client/bindings/wrpc_examples/hello/handler/bindings.wrpc.go]:
    the stub invokes the remote function [hello], closes the outgoing
    parameter stream, decodes one length-prefixed string from the incoming
    result stream and closes that stream on the way out.

    The Go function talks to three collaborators through interfaces
    ([wrpc.Invoker], [wrpc.IndexWriteCloser], [wrpc.IndexReadCloser]) and to
    the process-wide [slog] logger.  The collaborators are a parameter of the
    development (class [Transport]); their calls and the log calls are
    recorded, in order, in a trace. *)

From Stdlib Require Import ZArith String Ascii Strings.Byte Bool Lia List.
Import ListNotations.
Local Open Scope Z_scope.

(** ** Go values *)

(** Go's [error] values as far as the stub builds or inspects them.
    [io_EOF] and [io_ErrUnexpectedEOF] are the two sentinels of package [io]
    (compared by identity in the source), [errors_New msg] is
    [errors.New(msg)], and [fmt_Errorf msg e] is [fmt.Errorf(msg + ": %w", e)]. *)
Inductive error : Type :=
| io_EOF
| io_ErrUnexpectedEOF
| errors_New (msg : string)
| fmt_Errorf (msg : string) (e : error).

(** [err == io.EOF] *)
Definition is_EOF (e : error) : bool :=
  match e with
  | io_EOF => true
  | _ => false
  end.

(** A Go [string] is a sequence of bytes; [string(buf)] copies the slice. *)
Definition string_of_bytes (buf : list byte) : string := string_of_list_byte buf.

Definition byte_Z (b : byte) : Z := Z.of_N (Byte.to_N b).

Definition uint8 (z : Z) : Z := z mod 2 ^ 8.
Definition uint32 (z : Z) : Z := z mod 2 ^ 32.

(** [make([]byte, x)]: a zeroed slice of length [x] (the allocation is
    taken to succeed). *)
Definition make_bytes (x : Z) : list byte := repeat x00 (Z.to_nat x).

(** The builtin [copy(dst, src)] seen as a function: the first
    [min (len dst) (len src)] bytes of [dst] are replaced, its length is kept. *)
Definition copy (dst src : list byte) : list byte :=
  firstn (length dst) src ++ skipn (length src) dst.

(** ** [unicode/utf8.Valid]

    Go's validator accepts exactly the well-formed sequences: one byte below
    [0x80], or a starter byte followed by the continuation bytes its accept
    range allows (no overlong forms, no surrogates, nothing above U+10FFFF). *)
Module utf8.

Definition between (lo hi : Z) (b : byte) : bool :=
  (lo <=? byte_Z b) && (byte_Z b <=? hi).

Definition locb : Z := 0x80.
Definition hicb : Z := 0xBF.

Fixpoint Valid (p : list byte) : bool :=
  match p with
  | [] => true
  | b0 :: p1 =>
    if byte_Z b0 <? 0x80 then Valid p1
    else if between 0xC2 0xDF b0 then
      match p1 with
      | b1 :: p2 => between locb hicb b1 && Valid p2
      | _ => false
      end
    else if between 0xE0 0xEF b0 then
      match p1 with
      | b1 :: b2 :: p3 =>
        between (if byte_Z b0 =? 0xE0 then 0xA0 else locb)
                (if byte_Z b0 =? 0xED then 0x9F else hicb) b1
        && between locb hicb b2 && Valid p3
      | _ => false
      end
    else if between 0xF0 0xF4 b0 then
      match p1 with
      | b1 :: b2 :: b3 :: p4 =>
        between (if byte_Z b0 =? 0xF0 then 0x90 else locb)
                (if byte_Z b0 =? 0xF4 then 0x8F else hicb) b1
        && between locb hicb b2 && between locb hicb b3 && Valid p4
      | _ => false
      end
    else false
  end.

End utf8.

(** ** The collaborators *)

(** The calls the stub makes on its collaborators, as functions of the state
    [W] of everything outside the stub (connection, peer, context).
    - [Invoke instance name]: [wrpc__.Invoke(ctx__, instance, name, nil)];
      the two streams it returns live in the new state, the [error] is
      returned.
    - [WriterClose], [ReaderClose]: [w__.Close()], [r__.Close()].
    - [ReadByte]: [r__.ReadByte()], the byte and the error.
    - [Read len]: [r__.Read(p)] for a zeroed [p] of length [len]: the bytes
      stored into [p] (put there with [copy]), the count [n] and the error. *)
Class Transport (W : Type) : Type := {
  Invoke : string -> string -> W -> option error * W;
  WriterClose : W -> option error * W;
  ReaderClose : W -> option error * W;
  ReadByte : W -> (byte * option error) * W;
  Read : nat -> W -> (list byte * Z * option error) * W
}.


(** [slog.LevelDebug], [slog.LevelError] *)
Inductive level : Type := LevelDebug | LevelError.

(** What the stub does to the outside, in order. *)
Inductive event : Type :=
| EInvoke (instance name : string)
| EWriterClose
| EReaderClose
| EReadByte
| ERead (len : nat)
| ELog (lvl : level) (msg : string).

Definition event_eq_dec (a b : event) : {a = b} + {a <> b}.
Proof.
  repeat decide equality.
Defined.

(** ** The stub's monad: outside state and trace *)

Record state (W : Type) : Type := mkState { world : W; trace : list event }.
Arguments mkState {W} _ _.
Arguments world {W} _.
Arguments trace {W} _.

Definition M (W A : Type) : Type := state W -> A * state W.

Definition ret {W A} (a : A) : M W A := fun st => (a, st).

Definition bind {W A B} (m : M W A) (k : A -> M W B) : M W B :=
  fun st => let (a, st') := m st in k a st'.

Declare Scope stub_scope.
Delimit Scope stub_scope with stub.
Notation "x <- m ;; k" := (bind m (fun x => k))
  (at level 61, m at next level, right associativity) : stub_scope.
Notation "m ;; k" := (bind m (fun _ => k))
  (at level 61, right associativity) : stub_scope.
Local Open Scope stub_scope.

(** One call on a collaborator: the outside moves, the trace grows. *)
Definition call {W A} (ev : event) (f : W -> A * W) : M W A :=
  fun st => let (a, w) := f (world st) in (a, mkState w (trace st ++ [ev])).

(** [slog.Debug], [slog.DebugContext], [slog.ErrorContext]: only logged. *)
Definition slog {W} (lvl : level) (msg : string) : M W unit :=
  fun st => (tt, mkState (world st) (trace st ++ [ELog lvl msg])).

(** [defer d; body]: [d] runs once [body] has fixed the results. *)
Definition defer {W A} (d : M W unit) (body : M W A) : M W A :=
  a <- body ;; d ;; ret a.

(** A [for] loop with early [return]: the body either goes on with a new
    loop state or returns. *)
Inductive ctl (S A : Type) : Type :=
| Continue (s : S)
| Return (a : A).
Arguments Continue {S A} _.
Arguments Return {S A} _.

(** [for i := lo; i < lo + n; i++ { body }; after] *)
Fixpoint for_range {W S A} (n : nat) (i : Z) (body : Z -> S -> M W (ctl S A))
    (after : M W A) (s : S) : M W A :=
  match n with
  | O => after
  | Datatypes.S n' =>
    c <- body i s ;;
    match c with
    | Return a => ret a
    | Continue s' => for_range n' (i + 1) body after s'
    end
  end.

(** ** The stub *)

Section Stub.

Context {W : Type} {T : Transport W}.

Definition result : Type := string * option error.

Definition instance_name : string := "wrpc-examples:hello/handler".
Definition func_name : string := "hello".

(** Lines 50-59: the body read, for the decoded length [x]. *)
Definition read_string_bytes (x : Z) : M W result :=
  let buf := make_bytes x in
  slog LevelDebug "reading string bytes" ;;
  r <- call (ERead (length buf)) (Read (length buf)) ;;
  let '(data, _, err) := r in
  let buf := copy buf data in
  match err with
  | Some e => ret (""%string, Some (fmt_Errorf "failed to read string bytes" e))
  | None =>
    if negb (utf8.Valid buf)
    then ret (string_of_bytes buf, Some (errors_New "string is not valid UTF-8"))
    else ret (string_of_bytes buf, None)
  end.

(** Lines 37-62: one iteration of the length loop, on the loop state
    [(x, s)] ([x uint32], [s uint8]). *)
Definition length_step (i : Z) (xs : Z * Z) : M W (ctl (Z * Z) result) :=
  let '(x, s) := xs in
  slog LevelDebug "reading string length byte" ;;
  r <- call EReadByte ReadByte ;;
  let '(b, err) := r in
  match err with
  | Some e =>
    let e := if (0 <? i) && is_EOF e then io_ErrUnexpectedEOF else e in
    ret (Return (""%string, Some (fmt_Errorf "failed to read string length byte" e)))
  | None =>
    let b := byte_Z b in
    if (s =? 28) && (0x0f <? b)
    then ret (Return (""%string,
                      Some (errors_New "string length overflows a 32-bit integer")))
    else if b <? 0x80
    then a <- read_string_bytes (Z.lor x (uint32 (Z.shiftl b s))) ;; ret (Return a)
    else ret (Continue (Z.lor x (uint32 (Z.shiftl (Z.land b 0x7f) s)), uint8 (s + 7)))
  end.

(** Line 64, after the loop. *)
Definition length_overflow : M W result :=
  ret (""%string, Some (errors_New "string length overflows a 32-bit integer")).

(** Lines 30-65: the string reader applied to [r__]. *)
Definition read_string : M W result :=
  for_range 5 0 length_step length_overflow (0, 0).

(** Lines 22-26, the deferred function. *)
Definition close_reader : M W unit :=
  err <- call EReaderClose ReaderClose ;;
  match err with
  | Some _ => slog LevelError "failed to close reader"
  | None => ret tt
  end.

(** Lines 27-29. *)
Definition close_writer : M W unit :=
  cErr <- call EWriterClose WriterClose ;;
  match cErr with
  | Some _ => slog LevelDebug "failed to close outgoing stream"
  | None => ret tt
  end.

(** Lines 66-70: the named results [(r0__, err__)] after the decode. *)
Definition wrap_result (r : result) : result :=
  match snd r with
  | Some e => (fst r, Some (fmt_Errorf "failed to read result 0" e))
  | None => r
  end.

Definition Hello : M W result :=
  err <- call (EInvoke instance_name func_name) (Invoke instance_name func_name) ;;
  match err with
  | Some e => ret (""%string, Some (fmt_Errorf "failed to invoke `hello`" e))
  | None =>
    defer close_reader
      (close_writer ;;
       r <- read_string ;;
       ret (wrap_result r))
  end.

(** The state in which the decode starts, once [Invoke] has succeeded and
    the outgoing stream has been closed. *)
Definition decode_start (st : state W) : state W :=
  snd (close_writer
         (snd (call (EInvoke instance_name func_name)
                    (Invoke instance_name func_name) st))).

End Stub.

(** ** Shapes of results *)

(** The two failures of the length loop. *)
Definition overflow_result : result :=
  (""%string, Some (errors_New "string length overflows a 32-bit integer")).

Definition length_byte_failure (e : error) : result :=
  (""%string, Some (fmt_Errorf "failed to read string length byte" e)).


(** Bit 7 of a length byte: more bytes follow. *)
Definition continuation (b : byte) : Prop := 0x80 <= byte_Z b.

(** ** The wire format of the length prefix *)

Definition Z_byte (z : Z) : byte :=
  match Byte.of_N (Z.to_N z) with
  | Some b => b
  | None => x00
  end.

(** The length prefix as the specification words it, written as an encoder
    (the stub itself only decodes): "little-endian base-128 varint, 1-5
    bytes ... bits 0-6 = payload, bit 7 = continuation flag (1 = more bytes
    follow, 0 = last byte)"; byte [i] carries bits [7*i .. 7*i+6] of the
    value.  [n] bounds the number of bytes. *)
Fixpoint spec_encode_varint_from (n : nat) (v : Z) : list byte :=
  match n with
  | O => []
  | S n' =>
    if v <? 0x80 then [Z_byte v]
    else Z_byte (v mod 0x80 + 0x80) :: spec_encode_varint_from n' (v / 0x80)
  end.

Definition spec_encode_varint (x : Z) : list byte := spec_encode_varint_from 5 x.

(** ** Streams *)

Section Streams.

Context {W : Type} {T : Transport W}.

(** [yields w bs w']: from [w], successive [ReadByte] calls deliver the bytes
    [bs] without error and leave the outside in [w']. *)
Inductive yields : W -> list byte -> W -> Prop :=
| yields_nil w : yields w [] w
| yields_cons w b w1 bs w' :
    ReadByte w = ((b, None), w1) -> yields w1 bs w' -> yields w (b :: bs) w'.

End Streams.

(** What [k] iterations of the length loop add to the trace. *)
Fixpoint length_trace (k : nat) : list event :=
  match k with
  | O => []
  | S k' => ELog LevelDebug "reading string length byte" :: EReadByte :: length_trace k'
  end.

(** The trace of a body read of [len] bytes. *)
Definition body_trace (len : nat) : list event :=
  [ELog LevelDebug "reading string bytes"; ERead len].

Definition count (ev : event) (tr : list event) : nat := count_occ event_eq_dec tr ev.

(** ** An in-memory transport

    A connection whose incoming stream is a byte slice served the way Go's
    [bytes.Reader] serves it: [ReadByte] and [Read] report [io.EOF] once the
    slice is used up (also for an empty [p]), and [Read] otherwise stores
    what is available, up to [len(p)], without error.  The outcomes of
    [Invoke] and of the two [Close] calls are fixed in advance. *)
Module mem.

Record conn : Type := mkConn {
  invoke_err : option error;
  writer_close_err : option error;
  reader_close_err : option error;
  incoming : list byte
}.

Definition advance (k : nat) (c : conn) : conn :=
  mkConn (invoke_err c) (writer_close_err c) (reader_close_err c)
         (skipn k (incoming c)).

Definition read_byte (c : conn) : (byte * option error) * conn :=
  match incoming c with
  | [] => ((x00, Some io_EOF), c)
  | b :: _ => ((b, None), advance 1 c)
  end.

Definition read (len : nat) (c : conn) : (list byte * Z * option error) * conn :=
  match incoming c with
  | [] => (([], 0, Some io_EOF), c)
  | _ =>
    let n := Nat.min len (length (incoming c)) in
    ((firstn n (incoming c), Z.of_nat n, None), advance n c)
  end.

#[global] Instance transport : Transport conn := {|
  Invoke := fun _ _ c => (invoke_err c, c);
  WriterClose := fun c => (writer_close_err c, c);
  ReaderClose := fun c => (reader_close_err c, c);
  ReadByte := read_byte;
  Read := read
|}.

(** A healthy connection about to deliver [bs]. *)
Definition serving (bs : list byte) : conn := mkConn None None None bs.

Definition start (c : conn) : state conn := mkState c [].

End mem.

(** ** Further vocabulary *)

(** The same transport with another [Close] on the outgoing stream. *)
Definition with_WriterClose {W} (c : W -> option error * W) (T : Transport W)
  : Transport W :=
  {| Invoke := @Invoke W T;
     WriterClose := c;
     ReaderClose := @ReaderClose W T;
     ReadByte := @ReadByte W T;
     Read := @Read W T |}.

(** What lines 49 and 61 accumulate over the bytes of a length prefix: the
    low seven bits of each byte, least significant group first. *)
Fixpoint varint_value (bs : list byte) : Z :=
  match bs with
  | [] => 0
  | b :: bs' => Z.land (byte_Z b) 0x7f + 0x80 * varint_value bs'
  end.

(** A decode without error returns a buffer that passed the UTF-8 check. *)
Definition success_shape (r : result) : Prop :=
  snd r = None ->
  exists buf, fst r = string_of_bytes buf /\ utf8.Valid buf = true.

(** The log line that follows a failed [Close], if any. *)
Definition logged (err : option error) (lvl : level) (msg : string) : list event :=
  match err with
  | Some _ => [ELog lvl msg]
  | None => []
  end.

(** ** A scripted incoming stream

    A connection whose incoming stream follows a script of bytes and
    failures: [ReadByte] takes the next entry, [Read] stores the bytes up to
    the next failure or up to [len(p)], and reports a failure when it is the
    next entry; both report [io.EOF] at the end of the script.  [Invoke] and
    the two [Close] calls succeed. *)
Module script.

Definition conn : Type := list (byte + error).

Definition read_byte (c : conn) : (byte * option error) * conn :=
  match c with
  | [] => ((x00, Some io_EOF), c)
  | inl b :: c' => ((b, None), c')
  | inr e :: c' => ((x00, Some e), c')
  end.

Fixpoint take_bytes (len : nat) (c : conn) : list byte * conn :=
  match len, c with
  | S len', inl b :: c' =>
    let (data, rest) := take_bytes len' c' in (b :: data, rest)
  | _, _ => ([], c)
  end.

Definition read (len : nat) (c : conn) : (list byte * Z * option error) * conn :=
  match c with
  | [] => (([], 0, Some io_EOF), c)
  | inr e :: c' => (([], 0, Some e), c')
  | inl _ :: _ =>
    let (data, rest) := take_bytes len c in
    ((data, Z.of_nat (length data), None), rest)
  end.

#[global] Instance transport : Transport conn := {|
  Invoke := fun _ _ c => (None, c);
  WriterClose := fun c => (None, c);
  ReaderClose := fun c => (None, c);
  ReadByte := read_byte;
  Read := read
|}.

End script.

(** * Properties *)

(** Closed side conditions on bytes and shifts. *)
Ltac by_eval := vm_compute; first [reflexivity | discriminate | intros; discriminate].

(** ** Bytes and bit arithmetic *)

Lemma byte_Z_range (b : byte) : 0 <= byte_Z b < 256.
Proof.
  unfold byte_Z. pose proof (Byte.to_N_bounded b). lia.
Qed.

Lemma byte_Z_Z_byte (z : Z) : 0 <= z < 256 -> byte_Z (Z_byte z) = z.
Proof.
  intros Hz. unfold byte_Z, Z_byte.
  destruct (Byte.of_N (Z.to_N z)) as [b|] eqn:E.
  - apply Byte.to_of_N in E. rewrite E. lia.
  - apply Byte.of_N_None_iff in E. lia.
Qed.

Lemma lor_shiftl_add (x y s : Z) :
  0 <= s -> 0 <= x < 2 ^ s -> 0 <= y ->
  Z.lor x (Z.shiftl y s) = x + y * 2 ^ s.
Proof.
  intros Hs Hx Hy.
  assert (Hland : Z.land x (Z.shiftl y s) = 0).
  { apply Z.bits_inj'. intros n Hn.
    rewrite Z.land_spec, Z.bits_0.
    destruct (Z.lt_ge_cases n s) as [Hlt|Hge].
    - rewrite (Z.shiftl_spec_low y s n Hlt). apply andb_false_r.
    - assert (Hbit : Z.testbit x n = false).
      { destruct (Z.eq_dec x 0) as [->|Hnz]; [apply Z.bits_0|].
        apply Z.bits_above_log2; [lia|].
        assert (Z.log2 x < s) by (apply Z.log2_lt_pow2; lia). lia. }
      rewrite Hbit. reflexivity. }
  rewrite <- (Z.lxor_lor _ _ Hland), <- (Z.add_nocarry_lxor _ _ Hland).
  rewrite Z.shiftl_mul_pow2 by assumption. reflexivity.
Qed.

Lemma land_0x7f (b : Z) : Z.land b 0x7f = b mod 0x80.
Proof.
  change 0x7f with (Z.ones 7). rewrite Z.land_ones by lia. reflexivity.
Qed.

Lemma length_make_bytes (x : Z) : length (make_bytes x) = Z.to_nat x.
Proof.
  unfold make_bytes. apply repeat_length.
Qed.

Lemma length_copy (dst src : list byte) : length (copy dst src) = length dst.
Proof.
  unfold copy. rewrite length_app, length_firstn, length_skipn. lia.
Qed.

Lemma count_app (ev : event) (l1 l2 : list event) :
  count ev (l1 ++ l2) = (count ev l1 + count ev l2)%nat.
Proof.
  unfold count. apply count_occ_app.
Qed.

Lemma count_length_trace (k : nat) : count EReadByte (length_trace k) = k.
Proof.
  induction k as [|k IH]; [reflexivity|].
  unfold count in *. simpl length_trace.
  rewrite count_occ_cons_neq by discriminate.
  rewrite count_occ_cons_eq by reflexivity. now rewrite IH.
Qed.

Lemma length_trace_app (j k : nat) :
  length_trace (j + k) = length_trace j ++ length_trace k.
Proof.
  induction j as [|j IH]; [reflexivity|].
  simpl. now rewrite IH.
Qed.

(** ** One iteration of the length loop *)

Section Steps.

Context {W : Type} {T : Transport W}.

Lemma length_step_failed i x s w tr b e w1 :
  ReadByte w = ((b, Some e), w1) ->
  length_step i (x, s) (mkState w tr) =
  (Return (length_byte_failure
             (if (0 <? i) && is_EOF e then io_ErrUnexpectedEOF else e)),
   mkState w1 (tr ++ length_trace 1)).
Proof.
  intros E. unfold length_step, bind, slog, call, ret. simpl.
  rewrite E. now rewrite <- app_assoc.
Qed.

Lemma length_step_guard i x s w tr b w1 :
  ReadByte w = ((b, None), w1) ->
  s = 28 -> 0x0f < byte_Z b ->
  length_step i (x, s) (mkState w tr) =
  (Return overflow_result, mkState w1 (tr ++ length_trace 1)).
Proof.
  intros E -> Hb. unfold length_step, bind, slog, call, ret. simpl.
  rewrite E. apply Z.ltb_lt in Hb. simpl in Hb |- *. rewrite Hb. simpl.
  now rewrite <- app_assoc.
Qed.

Lemma length_step_last i x s w tr b w1 :
  ReadByte w = ((b, None), w1) ->
  (s = 28 -> byte_Z b <= 0x0f) -> byte_Z b < 0x80 ->
  length_step i (x, s) (mkState w tr) =
  (let (a, st) := read_string_bytes (Z.lor x (uint32 (Z.shiftl (byte_Z b) s)))
                                    (mkState w1 (tr ++ length_trace 1))
   in (Return a, st)).
Proof.
  intros E Hg Hb. unfold length_step, bind, slog, call, ret. simpl.
  rewrite E. rewrite <- app_assoc.
  assert (G : (s =? 28) && (15 <? byte_Z b) = false).
  { destruct (Z.eqb_spec s 28) as [Hs|Hs]; [|reflexivity].
    simpl. apply Z.ltb_ge. auto. }
  rewrite G. apply Z.ltb_lt in Hb. rewrite Hb. reflexivity.
Qed.

Lemma length_step_more i x s w tr b w1 :
  ReadByte w = ((b, None), w1) ->
  s <> 28 -> 0x80 <= byte_Z b ->
  length_step i (x, s) (mkState w tr) =
  (Continue (Z.lor x (uint32 (Z.shiftl (Z.land (byte_Z b) 0x7f) s)), uint8 (s + 7)),
   mkState w1 (tr ++ length_trace 1)).
Proof.
  intros E Hs Hb. unfold length_step, bind, slog, call, ret. simpl.
  rewrite E. rewrite <- app_assoc.
  apply Z.eqb_neq in Hs. rewrite Hs. apply Z.ltb_ge in Hb. rewrite Hb.
  reflexivity.
Qed.

Lemma for_range_S {S A} n i (body : Z -> S -> M W (ctl S A)) after s st :
  for_range (Datatypes.S n) i body after s st =
  (let (c, st') := body i s st in
   match c with
   | Return a => (a, st')
   | Continue s' => for_range n (i + 1) body after s' st'
   end).
Proof.
  simpl. unfold bind. destruct (body i s st) as [[s'|a] st']; reflexivity.
Qed.

End Steps.

(** ** The length loop on an encoded length *)

(** Folding a payload into the accumulator, when nothing is lost. *)
Lemma fold_payload (x b s : Z) :
  0 <= s -> 0 <= x < 2 ^ s -> 0 <= b -> x + b * 2 ^ s < 2 ^ 32 ->
  Z.lor x (uint32 (Z.shiftl b s)) = x + b * 2 ^ s.
Proof.
  intros Hs Hx Hb Hlt. rewrite <- (lor_shiftl_add x b s) by assumption.
  f_equal. unfold uint32. rewrite Z.shiftl_mul_pow2 by assumption.
  apply Z.mod_small. nia.
Qed.

Section RoundTrip.

Context {W : Type} {T : Transport W}.

(** Loop invariant: before iteration [i] the shift is [7 * i], the
    accumulator holds the low [7 * i] bits, and [v] is what is still to be
    read. *)
Lemma for_range_encoded (n : nat) :
  forall i x v w w' tr after,
    0 <= i -> i + Z.of_nat n = 4 ->
    0 <= x < 2 ^ (7 * i) -> 0 <= v -> x + v * 2 ^ (7 * i) < 2 ^ 32 ->
    yields w (spec_encode_varint_from (S n) v) w' ->
    for_range (S n) i length_step after (x, 7 * i) (mkState w tr) =
    read_string_bytes (x + v * 2 ^ (7 * i))
      (mkState w' (tr ++ length_trace (length (spec_encode_varint_from (S n) v)))).
Proof.
  induction n as [|n IH]; intros i x v w w' tr after Hi Hin Hx Hv Hlt Hy;
    rewrite for_range_S;
    assert (Hs : 0 <= 7 * i) by lia;
    assert (Hp : 0 < 2 ^ (7 * i)) by (apply Z.pow_pos_nonneg; lia).
  - (* fifth byte *)
    assert (i = 4) by lia. subst i.
    assert (Hv16 : v < 16).
    { change (7 * 4) with 28 in *. change (2 ^ 28) with 268435456 in *.
      change (2 ^ 32) with 4294967296 in *. lia. }
    simpl spec_encode_varint_from in *.
    assert (Hvb : (v <? 128) = true) by (apply Z.ltb_lt; lia).
    rewrite Hvb in *. inversion Hy as [|? ? w1 ? ? E Hy']; subst.
    inversion Hy'; subst.
    rewrite (length_step_last _ _ _ _ _ _ _ E)
      by (rewrite byte_Z_Z_byte; lia).
    rewrite byte_Z_Z_byte by lia.
    rewrite fold_payload by assumption.
    simpl length. destruct (read_string_bytes _ _); reflexivity.
  - assert (Hi4 : i <= 3) by lia.
    simpl spec_encode_varint_from in Hy |- *.
    destruct (v <? 128) eqn:Hvb.
    + (* last byte *)
      apply Z.ltb_lt in Hvb.
      inversion Hy as [|? ? w1 ? ? E Hy']; subst. inversion Hy'; subst.
      rewrite (length_step_last _ _ _ _ _ _ _ E)
        by (rewrite byte_Z_Z_byte; lia).
      rewrite byte_Z_Z_byte by lia.
      rewrite fold_payload by assumption.
      simpl length. destruct (read_string_bytes _ _); reflexivity.
    + (* continuation byte *)
      apply Z.ltb_ge in Hvb.
      assert (Hm : 0 <= v mod 128 < 128) by (apply Z.mod_pos_bound; lia).
      assert (Hd : v = 128 * (v / 128) + v mod 128) by (apply Z.div_mod; lia).
      assert (Hq : 0 <= v / 128) by (apply Z.div_pos; lia).
      inversion Hy as [|? ? w1 ? ? E Hy']; subst.
      rewrite (length_step_more _ _ _ _ _ _ _ E)
        by (rewrite ?byte_Z_Z_byte; lia).
      rewrite byte_Z_Z_byte by lia.
      rewrite land_0x7f.
      replace ((v mod 128 + 128) mod 128) with (v mod 128)
        by (rewrite <- Z.add_mod_idemp_r, Z.mod_same, Z.add_0_r, Z.mod_mod; lia).
      assert (Hp7 : 2 ^ (7 * (i + 1)) = 128 * 2 ^ (7 * i)).
      { replace (7 * (i + 1)) with (7 + 7 * i) by lia.
        rewrite Z.pow_add_r by lia. reflexivity. }
      rewrite fold_payload by (try assumption; nia).
      unfold uint8.
      rewrite (Z.mod_small (7 * i + 7)) by (change (2 ^ 8) with 256; lia).
      replace (7 * i + 7) with (7 * (i + 1)) by lia.
      rewrite (IH (i + 1) _ (v / 128) w1 w' _ after);
        try lia; try assumption; try (rewrite Hp7; nia).
      rewrite Hp7. f_equal; [nia|].
      f_equal. rewrite <- app_assoc. reflexivity.
Qed.

End RoundTrip.

(** ** Continuation bytes, and what an iteration can do *)

Section Loop.

Context {W : Type} {T : Transport W}.

Lemma yields_app (l1 l2 : list byte) :
  forall w w', yields w (l1 ++ l2) w' <->
               exists w1, yields w l1 w1 /\ yields w1 l2 w'.
Proof.
  induction l1 as [|b l1 IH]; intros w w'; simpl.
  - split.
    + intros H. exists w. split; [constructor | assumption].
    + intros (w1 & H1 & H2). inversion H1; subst. assumption.
  - split.
    + intros H. inversion H as [|? ? w0 ? ? E H']; subst.
      apply IH in H' as (w1 & H1 & H2).
      exists w1. split; [econstructor; eassumption | assumption].
    + intros (w1 & H1 & H2). inversion H1 as [|? ? w0 ? ? E H']; subst.
      econstructor; [eassumption|]. apply IH. eauto.
Qed.

(** Up to four continuation bytes are folded in and the loop goes on, seven
    bits further. *)
Lemma for_range_continuations (bs : list byte) :
  forall n i x w w1 tr after,
    yields w bs w1 -> Forall continuation bs ->
    0 <= i -> i + Z.of_nat (length bs) <= 4 ->
    exists x',
      for_range (length bs + n) i length_step after (x, 7 * i) (mkState w tr) =
      for_range n (i + Z.of_nat (length bs)) length_step after
                (x', 7 * (i + Z.of_nat (length bs)))
                (mkState w1 (tr ++ length_trace (length bs))).
Proof.
  induction bs as [|b bs IH]; intros n i x w w1 tr after Hy Hc Hi Hle.
  - inversion Hy; subst. exists x. simpl.
    rewrite Z.add_0_r, app_nil_r. reflexivity.
  - inversion Hy as [|? ? w0 ? ? E Hy']; subst.
    inversion Hc as [|? ? Hb Hc']; subst.
    simpl length in *.
    destruct (IH n (i + 1)
                 (Z.lor x (uint32 (Z.shiftl (Z.land (byte_Z b) 0x7f) (7 * i))))
                 w0 w1 (tr ++ length_trace 1) after Hy' Hc'
                 ltac:(lia) ltac:(lia)) as [x' Hx'].
    exists x'. change (S (length bs) + n)%nat with (S (length bs + n)).
    rewrite for_range_S.
    rewrite (length_step_more _ _ _ _ _ _ _ E) by (unfold continuation in Hb; lia).
    unfold uint8. rewrite Z.mod_small by (change (2 ^ 8) with 256; lia).
    replace (7 * i + 7) with (7 * (i + 1)) by lia.
    rewrite Hx'. rewrite <- app_assoc.
    replace (i + 1 + Z.of_nat (length bs)) with (i + Z.of_nat (S (length bs))) by lia.
    reflexivity.
Qed.

(** An iteration that goes on has seen no error, was not the one at shift
    28, and moved the shift by seven. *)
Lemma length_step_Continue i x s st x' s' st' :
  length_step i (x, s) st = (Continue (x', s'), st') ->
  s <> 28 /\ s' = uint8 (s + 7).
Proof.
  unfold length_step, bind, slog, call, ret. simpl.
  destruct (ReadByte (world st)) as [[b [e|]] w1]; [discriminate|].
  destruct (Z.eqb_spec s 28) as [Hs|Hs]; simpl.
  - destruct (15 <? byte_Z b) eqn:Hg; [discriminate|].
    apply Z.ltb_ge in Hg.
    assert (Hb : (byte_Z b <? 128) = true) by (apply Z.ltb_lt; lia).
    rewrite Hb. destruct (read_string_bytes _ _). discriminate.
  - destruct (byte_Z b <? 128).
    + destruct (read_string_bytes _ _). discriminate.
    + intros H. inversion H. auto.
Qed.

Lemma read_string_bytes_trace x (st : state W) :
  trace (snd (read_string_bytes x st)) = trace st ++ body_trace (Z.to_nat x).
Proof.
  unfold read_string_bytes, bind, slog, call, ret. simpl.
  rewrite length_make_bytes.
  destruct (Read (Z.to_nat x) (world st)) as [[[data n] [e|]] w1]; simpl.
  - now rewrite <- app_assoc.
  - destruct (negb _); simpl; now rewrite <- app_assoc.
Qed.

(** Every iteration calls [ReadByte] once, and never [Close]. *)
Lemma length_step_trace i xs st :
  exists l, trace (snd (length_step i xs st)) = trace st ++ length_trace 1 ++ l
            /\ count EReadByte l = O /\ count EReaderClose l = O.
Proof.
  destruct xs as [x s].
  unfold length_step, bind, slog, call, ret. simpl.
  destruct (ReadByte (world st)) as [[b [e|]] w1]; simpl.
  - exists []. rewrite <- app_assoc. auto.
  - destruct ((s =? 28) && (15 <? byte_Z b)); simpl.
    + exists []. rewrite <- app_assoc. auto.
    + destruct (byte_Z b <? 128); simpl.
      * match goal with
        | |- context [read_string_bytes ?y ?st0] =>
          pose proof (read_string_bytes_trace y st0) as Htr;
            destruct (read_string_bytes y st0) as [a st1]
        end.
        simpl in *. exists (body_trace (Z.to_nat
          (Z.lor x (uint32 (Z.shiftl (byte_Z b) s))))).
        rewrite Htr, <- !app_assoc. auto.
      * exists []. rewrite <- app_assoc. auto.
Qed.

Lemma for_range_trace (n : nat) :
  forall i xs st,
  exists l, trace (snd (for_range n i length_step length_overflow xs st))
            = trace st ++ l
            /\ (count EReadByte l <= n)%nat /\ count EReaderClose l = O.
Proof.
  induction n as [|n IH]; intros i xs st.
  - exists []. simpl. rewrite app_nil_r. auto.
  - rewrite for_range_S.
    destruct (length_step_trace i xs st) as (l1 & Ht & Hb & Hc).
    destruct (length_step i xs st) as [[xs'|a] st1]; simpl in Ht.
    + destruct (IH (i + 1) xs' st1) as (l2 & Ht2 & Hb2 & Hc2).
      exists (length_trace 1 ++ l1 ++ l2).
      rewrite Ht2, Ht, <- !app_assoc. split; [reflexivity|].
      rewrite !count_app, Hb, Hc. simpl. split; [|assumption].
      unfold count in *. simpl. lia.
    + exists (length_trace 1 ++ l1). simpl snd. split; [assumption|].
      rewrite !count_app, Hb, Hc. unfold count. simpl. split; [lia|reflexivity].
Qed.

End Loop.

(** ** The length prefix *)

Lemma spec_encode_varint_from_length (n : nat) (v : Z) :
  (1 <= length (spec_encode_varint_from (S n) v) <= S n)%nat.
Proof.
  revert v. induction n as [|n IH]; intros v; simpl.
  - destruct (v <? 128); simpl; lia.
  - destruct (v <? 128); [simpl; lia|].
    specialize (IH (v / 128)). simpl in IH |- *.
    destruct (v / 128 <? 128); simpl in *; lia.
Qed.

(** Byte [i] of the encoding carries bits [7*i .. 7*i+6] of the value. *)
Lemma spec_encode_varint_from_payload (n : nat) :
  forall v i,
    0 <= v -> (i < length (spec_encode_varint_from n v))%nat ->
    Z.land (byte_Z (nth i (spec_encode_varint_from n v) x00)) 0x7f
    = (v / 2 ^ (7 * Z.of_nat i)) mod 0x80.
Proof.
  induction n as [|n IH]; intros v i Hv Hi;
    simpl spec_encode_varint_from in Hi |- *; [simpl in Hi; lia|].
  assert (Hm : 0 <= v mod 128 < 128) by (apply Z.mod_pos_bound; lia).
  destruct (v <? 128) eqn:Hvb.
  - apply Z.ltb_lt in Hvb. simpl in Hi.
    assert (i = O) by lia. subst i. simpl nth.
    rewrite land_0x7f, byte_Z_Z_byte by lia.
    change (2 ^ (7 * Z.of_nat 0)) with 1. now rewrite Z.div_1_r.
  - destruct i as [|i].
    + simpl nth. rewrite land_0x7f, byte_Z_Z_byte by lia.
      change (2 ^ (7 * Z.of_nat 0)) with 1.
      rewrite Z.div_1_r, <- Z.add_mod_idemp_r, Z.mod_same, Z.add_0_r, Z.mod_mod;
        lia.
    + simpl nth. simpl in Hi.
      rewrite IH by (try apply Z.div_pos; lia).
      rewrite Z.div_div by (try apply Z.pow_pos_nonneg; lia).
      replace (7 * Z.of_nat (S i)) with (7 + 7 * Z.of_nat i) by lia.
      rewrite Z.pow_add_r by lia. reflexivity.
Qed.

Example spec_encode_varint_examples :
  spec_encode_varint 0 = [x00]
  /\ spec_encode_varint 127 = [x7f]
  /\ spec_encode_varint 128 = [x80; x01]
  /\ spec_encode_varint 300 = [xac; x02]
  /\ spec_encode_varint (2 ^ 32 - 1) = [xff; xff; xff; xff; x0f].
Proof.
  repeat split.
Qed.

(** The end-to-end example of the interface: [0x05 "hello"]. *)
Example Hello_hello :
  Hello (mem.start (mem.serving [x05; x68; x65; x6c; x6c; x6f]))
  = (("hello"%string, None),
     mkState (mem.serving [])
       [EInvoke "wrpc-examples:hello/handler" "hello"; EWriterClose;
        ELog LevelDebug "reading string length byte"; EReadByte;
        ELog LevelDebug "reading string bytes"; ERead 5; EReaderClose]).
Proof.
  reflexivity.
Qed.

(** C1. For every [x] in [0, 2^32-1], the spec's varint encoding of [x] has
    one to five bytes, and on a stream that delivers it the length loop of
    [Hello] reads exactly those bytes and goes on to the body read with the
    length [x]. *)
Theorem varint_round_trip {W : Type} {T : Transport W}
    (x : Z) (w w' : W) (tr : list event) :
  0 <= x < 2 ^ 32 ->
  yields w (spec_encode_varint x) w' ->
  (1 <= length (spec_encode_varint x) <= 5)%nat /\
  read_string (mkState w tr) =
  read_string_bytes x
    (mkState w' (tr ++ length_trace (length (spec_encode_varint x)))).
Proof.
  intros Hx Hy. split; [apply spec_encode_varint_from_length|].
  unfold read_string, spec_encode_varint in *.
  change (0, 0) with (0, 7 * 0).
  rewrite (for_range_encoded 4 0 0 x w w' tr length_overflow);
    try assumption; try lia; try (change (2 ^ (7 * 0)) with 1; lia).
  f_equal. change (2 ^ (7 * 0)) with 1. lia.
Qed.

Lemma varint_round_trip_witness :
  read_string (mem.start (mem.serving [xac; x02])) =
  read_string_bytes 300
    (mkState (mem.serving []) (length_trace 2)).
Proof.
  apply (varint_round_trip 300 (mem.serving [xac; x02]) (mem.serving []) []).
  - lia.
  - repeat econstructor.
Defined.

(** C3. When the first four length bytes all have the continuation bit set
    and the fifth byte is greater than [0x0f], the length decode fails with
    "string length overflows a 32-bit integer", whatever the continuation
    bit of the fifth byte. *)
Theorem fifth_byte_overflow {W : Type} {T : Transport W}
    (bs : list byte) (b : byte) (w w' : W) (tr : list event) :
  yields w (bs ++ [b]) w' ->
  length bs = 4%nat -> Forall continuation bs ->
  0x0f < byte_Z b ->
  read_string (mkState w tr) =
  ((""%string, Some (errors_New "string length overflows a 32-bit integer")),
   mkState w' (tr ++ length_trace 5)).
Proof.
  intros Hy Hlen Hc Hb.
  apply yields_app in Hy as (w1 & Hy1 & Hy2).
  inversion Hy2 as [|? ? w2 ? ? E Hnil]; subst. inversion Hnil; subst.
  destruct (for_range_continuations bs 1 0 0 w w1 tr length_overflow Hy1 Hc)
    as [x' Hx']; [lia | lia |].
  rewrite Hlen in Hx'.
  unfold read_string. change (0, 0) with (0, 7 * 0).
  change 5%nat with (4 + 1)%nat at 1. rewrite Hx'.
  change (7 * (0 + Z.of_nat 4)) with 28.
  rewrite for_range_S.
  rewrite (length_step_guard _ _ _ _ _ _ _ E) by (reflexivity || assumption).
  rewrite <- app_assoc. reflexivity.
Qed.

Lemma fifth_byte_overflow_witness :
  read_string (mem.start (mem.serving [xff; xff; xff; xff; x90; x00])) =
  ((""%string, Some (errors_New "string length overflows a 32-bit integer")),
   mkState (mem.serving [x00]) (length_trace 5)).
Proof.
  apply (fifth_byte_overflow [xff; xff; xff; xff] x90).
  - simpl. repeat econstructor.
  - reflexivity.
  - repeat constructor; unfold continuation; vm_compute; discriminate.
  - vm_compute. reflexivity.
Defined.

(** C4. In the length loop, a failed byte read at iteration 0 is returned as
    it is, wrapped with "failed to read string length byte"; at an iteration
    [i > 0] (after [i] continuation bytes) [io.EOF] is first replaced by
    [io.ErrUnexpectedEOF].  So a stream that ends after two continuation
    bytes fails with the truncation error. *)
Theorem length_byte_read_failure {W : Type} {T : Transport W}
    (bs : list byte) (b : byte) (e : error) (w w1 w2 : W) (tr : list event) :
  yields w bs w1 -> Forall continuation bs -> (length bs <= 4)%nat ->
  ReadByte w1 = ((b, Some e), w2) ->
  (bs = [] ->
   read_string (mkState w tr) =
   ((""%string, Some (fmt_Errorf "failed to read string length byte" e)),
    mkState w2 (tr ++ length_trace 1)))
  /\
  (bs <> [] -> e = io_EOF ->
   read_string (mkState w tr) =
   ((""%string,
     Some (fmt_Errorf "failed to read string length byte" io_ErrUnexpectedEOF)),
    mkState w2 (tr ++ length_trace (S (length bs))))).
Proof.
  intros Hy Hc Hlen E.
  destruct (for_range_continuations bs (5 - length bs) 0 0 w w1 tr
              length_overflow Hy Hc) as [x' Hx']; [lia | lia |].
  replace (length bs + (5 - length bs))%nat with 5%nat in Hx' by lia.
  unfold read_string. change (0, 0) with (0, 7 * 0). rewrite Hx'.
  destruct (5 - length bs)%nat as [|n] eqn:Hn; [lia|].
  rewrite for_range_S, (length_step_failed _ _ _ _ _ _ _ _ E).
  split.
  - intros ->. simpl. rewrite app_nil_r. reflexivity.
  - intros Hne ->.
    assert (Hpos : (0 <? 0 + Z.of_nat (length bs)) = true).
    { apply Z.ltb_lt. destruct bs; [congruence | simpl length; lia]. }
    rewrite Hpos. simpl andb. cbv iota.
    rewrite <- app_assoc.
    replace (S (length bs)) with (length bs + 1)%nat by lia.
    rewrite length_trace_app. reflexivity.
Qed.

Lemma length_byte_read_failure_witness :
  read_string (mem.start (mem.serving [x80; x80])) =
  ((""%string,
    Some (fmt_Errorf "failed to read string length byte" io_ErrUnexpectedEOF)),
   mkState (mem.serving []) (length_trace 3)).
Proof.
  apply (length_byte_read_failure [x80; x80] x00 io_EOF
           (mem.serving [x80; x80]) (mem.serving []) (mem.serving []) []).
  - repeat econstructor.
  - repeat constructor; unfold continuation; vm_compute; discriminate.
  - simpl. lia.
  - reflexivity.
  - discriminate.
  - reflexivity.
Defined.

(** ** The bound of the length loop *)

Section Bound.

Context {W : Type} {T : Transport W}.

(** From iteration [i] with shift [7 * i], the statement after the loop is
    never reached: the iteration at shift 28 always returns. *)
Lemma for_range_after_dead (n : nat) :
  forall i x st (after after' : M W result),
    0 <= i -> i + Z.of_nat n = 4 ->
    for_range (S n) i length_step after (x, 7 * i) st =
    for_range (S n) i length_step after' (x, 7 * i) st.
Proof.
  induction n as [|n IH]; intros i x st after after' Hi Hin;
    rewrite !for_range_S;
    destruct (length_step i (x, 7 * i) st) as [[[x' s']|a] st'] eqn:E;
    try reflexivity;
    apply length_step_Continue in E as [Hs Hs'].
  - exfalso. apply Hs. lia.
  - subst s'. unfold uint8.
    rewrite Z.mod_small by (change (2 ^ 8) with 256; lia).
    replace (7 * i + 7) with (7 * (i + 1)) by lia.
    apply IH; lia.
Qed.

End Bound.

(** C9. The length loop returns within its five iterations: the iteration at
    shift 28 never goes on (its byte trips the overflow guard or is a last
    byte), so whatever stands after the loop is never run, and at most five
    [ReadByte] calls are made for one length. *)
Theorem length_loop_bound {W : Type} {T : Transport W} (st : state W) :
  (forall after : M W result,
      for_range 5 0 length_step after (0, 0) st = read_string st)
  /\ (forall x st4, exists a, fst (length_step 4 (x, 28) st4) = Return a)
  /\ (count EReadByte (trace (snd (read_string st)))
      <= count EReadByte (trace st) + 5)%nat.
Proof.
  split; [|split].
  - intros after. unfold read_string. change (0, 0) with (0, 7 * 0).
    apply for_range_after_dead; lia.
  - intros x st4.
    destruct (length_step 4 (x, 28) st4) as [[[x' s']|a] st'] eqn:E.
    + apply length_step_Continue in E as [Hs _]. now elim Hs.
    + exists a. reflexivity.
  - unfold read_string.
    destruct (for_range_trace 5 0 (0, 0) st) as (l & Ht & Hb & _).
    rewrite Ht, count_app. lia.
Qed.

(** C10. The length decoder accepts encodings that are not minimal: the two
    bytes [0x80, 0x00] decode to length 0 just as the single byte [0x00]
    does, although the encoding of 0 is [0x00] alone; so decoding is not
    injective and encoding the decoded length need not give back the bytes
    read. *)
Theorem non_minimal_length_accepted {W : Type} {T : Transport W}
    (wa wa' wb wb' : W) (tr : list event) :
  yields wa [x80; x00] wa' ->
  yields wb [x00] wb' ->
  read_string (mkState wa tr) =
    read_string_bytes 0 (mkState wa' (tr ++ length_trace 2))
  /\ read_string (mkState wb tr) =
    read_string_bytes 0 (mkState wb' (tr ++ length_trace 1))
  /\ [x80; x00] <> [x00]
  /\ spec_encode_varint 0 <> [x80; x00].
Proof.
  intros Ha Hb. repeat split; try discriminate.
  - inversion Ha as [|? ? w1 ? ? E1 Ha1]; subst.
    inversion Ha1 as [|? ? w2 ? ? E2 Ha2]; subst. inversion Ha2; subst.
    unfold read_string.
    rewrite for_range_S, (length_step_more _ _ _ _ _ _ _ E1)
      by by_eval.
    rewrite for_range_S, (length_step_last _ _ _ _ _ _ _ E2)
      by by_eval.
    change (Z.lor _ _) with 0. rewrite <- app_assoc.
    change (length_trace 1 ++ length_trace 1) with (length_trace 2).
    destruct (read_string_bytes _ _); reflexivity.
  - inversion Hb as [|? ? w1 ? ? E1 Hb1]; subst. inversion Hb1; subst.
    unfold read_string.
    rewrite for_range_S, (length_step_last _ _ _ _ _ _ _ E1)
      by by_eval.
    change (Z.lor _ _) with 0.
    destruct (read_string_bytes _ _); reflexivity.
Qed.

Lemma non_minimal_length_accepted_witness :
  read_string (mem.start (mem.serving [x80; x00])) =
    read_string_bytes 0 (mkState (mem.serving []) (length_trace 2))
  /\ read_string (mem.start (mem.serving [x00])) =
    read_string_bytes 0 (mkState (mem.serving []) (length_trace 1)).
Proof.
  destruct (non_minimal_length_accepted
              (mem.serving [x80; x00]) (mem.serving [])
              (mem.serving [x00]) (mem.serving []) [])
    as (Ha & Hb & _).
  - repeat econstructor.
  - repeat econstructor.
  - split; assumption.
Defined.

(** ** The body read *)

Section Body.

Context {W : Type} {T : Transport W}.

Lemma copy_full (dst src : list byte) :
  length src = length dst -> copy dst src = src.
Proof.
  intros H. unfold copy.
  rewrite <- H, firstn_all, skipn_all2 by lia. apply app_nil_r.
Qed.

Lemma copy_nil (src : list byte) : copy [] src = [].
Proof.
  unfold copy. simpl. now rewrite skipn_nil.
Qed.

(** The body read in one equation: one [Read], whose count is dropped. *)
Lemma read_string_bytes_run x w tr data n err w' :
  Read (Z.to_nat x) w = ((data, n, err), w') ->
  read_string_bytes x (mkState w tr) =
  (match err with
   | Some e => (""%string, Some (fmt_Errorf "failed to read string bytes" e))
   | None =>
     let buf := copy (make_bytes x) data in
     if utf8.Valid buf
     then (string_of_bytes buf, None)
     else (string_of_bytes buf, Some (errors_New "string is not valid UTF-8"))
   end,
   mkState w' (tr ++ body_trace (Z.to_nat x))).
Proof.
  intros E. unfold read_string_bytes, bind, slog, call, ret. simpl.
  rewrite length_make_bytes, E, <- app_assoc. simpl.
  destruct err as [e|]; [reflexivity|].
  destruct (utf8.Valid _); reflexivity.
Qed.

End Body.



(** C2, as stated, fails: a stream holding one byte answers a two-byte
    [Read] with [n = 1] and no error, and the decode succeeds with the
    zero-padded buffer. *)
Lemma short_read_accepted :
  Read 2 (mem.serving [x41]) = (([x41], 1, None), mem.serving [])
  /\ 1 < 2
  /\ fst (read_string_bytes 2 (mem.start (mem.serving [x41])))
     = (string_of_bytes [x41; x00], None)
  /\ fst (read_string (mem.start (mem.serving [x02; x41])))
     = (string_of_bytes [x41; x00], None).
Proof.
  repeat split.
Qed.

(** C2, amended. The body read issues exactly one [Read] for the [x]-byte
    buffer.  If that call reports an error, whatever its byte count, the
    decode fails with "failed to read string bytes" wrapping the error; if
    it reports none, the decode does not fail that way, whatever its byte
    count. *)
Theorem body_read_outcome {W : Type} {T : Transport W}
    (x : Z) (data : list byte) (n : Z) (err : option error) (w w' : W)
    (tr : list event) :
  Read (Z.to_nat x) w = ((data, n, err), w') ->
  trace (snd (read_string_bytes x (mkState w tr)))
  = tr ++ [ELog LevelDebug "reading string bytes"; ERead (Z.to_nat x)]
  /\ match err with
     | Some e =>
       fst (read_string_bytes x (mkState w tr))
       = (""%string, Some (fmt_Errorf "failed to read string bytes" e))
     | None =>
       forall e, snd (fst (read_string_bytes x (mkState w tr)))
                 <> Some (fmt_Errorf "failed to read string bytes" e)
     end.
Proof.
  intros E. rewrite (read_string_bytes_run _ _ _ _ _ _ _ E). simpl.
  split; [reflexivity|].
  destruct err as [e|]; [reflexivity|].
  intros e. destruct (utf8.Valid _); simpl; discriminate.
Qed.

Lemma body_read_outcome_witness :
  fst (read_string_bytes 2 (mem.start (mem.serving [])))
  = (""%string, Some (fmt_Errorf "failed to read string bytes" io_EOF)).
Proof.
  assert (E : Read (Z.to_nat 2) (mem.serving [])
              = (([], 0, Some io_EOF), mem.serving [])) by reflexivity.
  exact (proj2 (body_read_outcome 2 [] 0 (Some io_EOF) _ _ [] E)).
Defined.

(** C7, as stated, fails: on a stream that holds the byte [0x00] and
    nothing else, the [Read] for the empty body reports [io.EOF] and the
    decode fails. *)
Lemma zero_length_at_end_of_stream :
  yields (mem.serving [x00]) [x00] (mem.serving [])
  /\ fst (read_string (mem.start (mem.serving [x00])))
     = (""%string, Some (fmt_Errorf "failed to read string bytes" io_EOF)).
Proof.
  split; [repeat econstructor | reflexivity].
Qed.

(** C7, amended. On a stream whose next byte is [0x00] the decoder reads
    that one byte for the length and issues one [Read] with an empty
    buffer; when that call reports no error, the decoder returns the empty
    string and no error. *)
Theorem zero_length_string {W : Type} {T : Transport W}
    (w w1 w2 : W) (data : list byte) (n : Z) (tr : list event) :
  yields w [x00] w1 ->
  Read 0 w1 = ((data, n, None), w2) ->
  read_string (mkState w tr) =
  ((""%string, None),
   mkState w2 (tr ++ [ELog LevelDebug "reading string length byte"; EReadByte;
                      ELog LevelDebug "reading string bytes"; ERead 0])).
Proof.
  intros Hy E.
  inversion Hy as [|? ? w0 ? ? E1 Hy1]; subst. inversion Hy1; subst.
  unfold read_string.
  rewrite for_range_S, (length_step_last _ _ _ _ _ _ _ E1) by by_eval.
  change (Z.lor _ _) with 0.
  rewrite (read_string_bytes_run 0 _ _ _ _ _ _ E). simpl.
  rewrite copy_nil, <- app_assoc. reflexivity.
Qed.

Lemma zero_length_string_witness :
  read_string (mem.start (mem.serving [x00; x41])) =
  ((""%string, None),
   mkState (mem.serving [x41])
           [ELog LevelDebug "reading string length byte"; EReadByte;
            ELog LevelDebug "reading string bytes"; ERead 0]).
Proof.
  apply (zero_length_string (mem.serving [x00; x41]) (mem.serving [x41])
                            (mem.serving [x41]) [] 0 []).
  - repeat econstructor.
  - reflexivity.
Defined.

(** ** The results of the decoder and of [Hello] *)

Section Results.

Context {W : Type} {T : Transport W}.




Lemma Hello_run (st : state W) :
  Hello st =
  match fst (Invoke instance_name func_name (world st)) with
  | Some e =>
    ((""%string, Some (fmt_Errorf "failed to invoke `hello`" e)),
     snd (call (EInvoke instance_name func_name)
               (Invoke instance_name func_name) st))
  | None =>
    (wrap_result (fst (read_string (decode_start st))),
     snd (close_reader (snd (read_string (decode_start st)))))
  end.
Proof.
  unfold Hello, decode_start, defer, bind, call, ret.
  destruct (Invoke instance_name func_name (world st)) as [[e|] w1]; simpl;
    [reflexivity|].
  destruct (close_writer _) as [[] st2]. simpl.
  destruct (read_string st2) as [r st3]. simpl.
  destruct (close_reader st3) as [[] st4]. reflexivity.
Qed.



End Results.





(** * Further properties of the stub *)

(** ** One iteration, all cases *)

Section Cases.

Context {W : Type} {T : Transport W}.

Lemma length_step_cases i x s (st : state W) b err w1 :
  ReadByte (world st) = ((b, err), w1) ->
  length_step i (x, s) st =
  let st1 := mkState w1 (trace st ++ length_trace 1) in
  match err with
  | Some e =>
    (Return (length_byte_failure
               (if (0 <? i) && is_EOF e then io_ErrUnexpectedEOF else e)), st1)
  | None =>
    if (s =? 28) && (0x0f <? byte_Z b) then (Return overflow_result, st1)
    else if byte_Z b <? 0x80
    then (let (a, st2) :=
              read_string_bytes (Z.lor x (uint32 (Z.shiftl (byte_Z b) s))) st1
          in (Return a, st2))
    else (Continue (Z.lor x (uint32 (Z.shiftl (Z.land (byte_Z b) 0x7f) s)),
                    uint8 (s + 7)), st1)
  end.
Proof.
  intros E. unfold length_step, bind, slog, call, ret. simpl.
  rewrite E, <- app_assoc. simpl.
  destruct err as [e|]; [reflexivity|].
  destruct ((s =? 28) && (15 <? byte_Z b)); [reflexivity|].
  destruct (byte_Z b <? 128); reflexivity.
Qed.

Lemma pow7_succ (i : Z) : 0 <= i -> 2 ^ (7 * (i + 1)) = 128 * 2 ^ (7 * i).
Proof.
  intros Hi. replace (7 * (i + 1)) with (7 + 7 * i) by lia.
  rewrite Z.pow_add_r by lia. reflexivity.
Qed.

Lemma pow7_le (i : Z) : 0 <= i <= 3 -> 0 < 2 ^ (7 * i) <= 2097152.
Proof.
  intros Hi. split; [apply Z.pow_pos_nonneg; lia|].
  change 2097152 with (2 ^ 21). apply Z.pow_le_mono_r; lia.
Qed.

(** Any accepted prefix: continuation bytes, then a last byte that fits. *)
Lemma for_range_value (cs : list byte) :
  forall n i x b w w' tr after,
    yields w (cs ++ [b]) w' -> Forall continuation cs ->
    0 <= i -> i + Z.of_nat (length cs) <= 4 ->
    0 <= x < 2 ^ (7 * i) -> byte_Z b < 0x80 ->
    (i + Z.of_nat (length cs) = 4 -> byte_Z b <= 0x0f) ->
    for_range (S (length cs + n)) i length_step after (x, 7 * i) (mkState w tr) =
    read_string_bytes (x + varint_value (cs ++ [b]) * 2 ^ (7 * i))
      (mkState w' (tr ++ length_trace (S (length cs)))).
Proof.
  induction cs as [|c cs IH]; intros n i x b w w' tr after Hy Hc Hi Hle Hx Hb H15;
    rewrite for_range_S; pose proof (byte_Z_range b) as Hrb.
  - simpl in Hy. inversion Hy as [|? ? w1 ? ? E Hy']; subst. inversion Hy'; subst.
    simpl length in *.
    rewrite (length_step_last _ _ _ _ _ _ _ E) by lia.
    assert (Hfit : x + byte_Z b * 2 ^ (7 * i) < 2 ^ 32).
    { change (2 ^ 32) with 4294967296.
      destruct (Z.eq_dec i 4) as [->|Hi4].
      - change (2 ^ (7 * 4)) with 268435456 in *. lia.
      - pose proof (pow7_le i ltac:(lia)). nia. }
    rewrite fold_payload by lia.
    assert (Hv : varint_value ([] ++ [b]) = byte_Z b).
    { simpl. rewrite land_0x7f, Z.mod_small; lia. }
    rewrite Hv.
    destruct (read_string_bytes _ _); reflexivity.
  - simpl in Hy. inversion Hy as [|? ? w1 ? ? E Hy']; subst.
    inversion Hc as [|? ? Hcb Hc']; subst. unfold continuation in Hcb.
    simpl length in *. pose proof (byte_Z_range c) as Hrc.
    assert (Hm : 0 <= byte_Z c mod 128 < 128) by (apply Z.mod_pos_bound; lia).
    pose proof (pow7_le i ltac:(lia)) as Hp. pose proof (pow7_succ i Hi) as Hp7.
    rewrite (length_step_more _ _ _ _ _ _ _ E) by lia.
    rewrite land_0x7f.
    assert (Hmul : byte_Z c mod 128 * 2 ^ (7 * i) <= 127 * 2 ^ (7 * i))
      by (apply Z.mul_le_mono_nonneg_r; lia).
    rewrite fold_payload by (change (2 ^ 32) with 4294967296; lia).
    unfold uint8.
    rewrite (Z.mod_small (7 * i + 7)) by (change (2 ^ 8) with 256; lia).
    replace (7 * i + 7) with (7 * (i + 1)) by lia.
    change (S (length cs) + n)%nat with (S (length cs + n)).
    rewrite (IH n (i + 1) _ b w1 w' _ after); try assumption; try lia;
      try (rewrite Hp7; lia).
    assert (Hv : varint_value ((c :: cs) ++ [b])
                 = byte_Z c mod 128 + 128 * varint_value (cs ++ [b])).
    { change ((c :: cs) ++ [b]) with (c :: (cs ++ [b])).
      cbn [varint_value]. now rewrite land_0x7f. }
    rewrite Hv, Hp7.
    f_equal; [ring|]. f_equal. rewrite <- app_assoc. reflexivity.
Qed.

End Cases.

(** X1. A length prefix of up to four continuation bytes and a last byte
    (at most [0x0f] when it is the fifth) is accepted, minimal or not, and
    the body is read with the length made of the bytes' low seven bits,
    least significant group first. *)
Theorem length_prefix_value {W : Type} {T : Transport W}
    (cs : list byte) (b : byte) (w w' : W) (tr : list event) :
  yields w (cs ++ [b]) w' ->
  Forall continuation cs -> (length cs <= 4)%nat ->
  byte_Z b < 0x80 -> (length cs = 4%nat -> byte_Z b <= 0x0f) ->
  read_string (mkState w tr) =
  read_string_bytes (varint_value (cs ++ [b]))
                    (mkState w' (tr ++ length_trace (S (length cs)))).
Proof.
  intros Hy Hc Hlen Hb H15. unfold read_string.
  replace 5%nat with (S (length cs + (4 - length cs))) by lia.
  change (0, 0) with (0, 7 * 0).
  rewrite (for_range_value cs _ 0 0 b w w' tr); try assumption; try lia;
    try (change (2 ^ (7 * 0)) with 1; lia).
  f_equal. change (2 ^ (7 * 0)) with 1. lia.
Qed.

Lemma length_prefix_value_witness :
  read_string (mem.start (mem.serving [xff; x80; x01])) =
  read_string_bytes 16511 (mkState (mem.serving []) (length_trace 3)).
Proof.
  apply (length_prefix_value [xff; x80] x01 (mem.serving [xff; x80; x01])
                             (mem.serving []) []).
  - repeat econstructor.
  - repeat constructor; unfold continuation; by_eval.
  - simpl. lia.
  - by_eval.
  - by_eval.
Defined.

(** ** Where the overflow error comes from *)

Section Overflow.

Context {W : Type} {T : Transport W}.

Lemma read_string_bytes_not_overflow x (st : state W) :
  fst (read_string_bytes x st) <> overflow_result.
Proof.
  destruct st as [w tr].
  destruct (Read (Z.to_nat x) w) as [[[data n] err] w'] eqn:E.
  rewrite (read_string_bytes_run _ _ _ _ _ _ _ E). simpl.
  unfold overflow_result.
  destruct err as [e|]; [discriminate|].
  destruct (utf8.Valid _); discriminate.
Qed.

Lemma for_range_overflow_only (n : nat) :
  forall i x w tr,
    0 <= i -> i + Z.of_nat n = 4 ->
    fst (for_range (S n) i length_step length_overflow (x, 7 * i) (mkState w tr))
    = overflow_result ->
    exists cs b w',
      yields w (cs ++ [b]) w' /\ Forall continuation cs
      /\ i + Z.of_nat (length cs) = 4 /\ 0x0f < byte_Z b.
Proof.
  induction n as [|n IH]; intros i x w tr Hi Hin;
    rewrite for_range_S;
    destruct (ReadByte w) as [[b err] w1] eqn:E;
    rewrite (length_step_cases i x (7 * i) (mkState w tr) b err w1 E);
    cbv zeta; (destruct err as [e|]; [unfold length_byte_failure, overflow_result;
                                      simpl; discriminate|]);
    (destruct ((7 * i =? 28) && (15 <? byte_Z b)) eqn:G;
     [ intros _; apply andb_prop in G as [G1 G2];
       apply Z.eqb_eq in G1; apply Z.ltb_lt in G2;
       exists [], b, w1; simpl;
       repeat split; [repeat econstructor; exact E | constructor | lia | lia] |]);
    (destruct (byte_Z b <? 128) eqn:Hb;
     [ match goal with
       | |- context [read_string_bytes ?y ?st0] =>
         pose proof (read_string_bytes_not_overflow y st0) as Hno;
           destruct (read_string_bytes y st0) as [a st2]
       end; simpl in *; intros H; now elim Hno |]).
  - (* the iteration at shift 28 does not go on *)
    exfalso. assert (i = 4) by lia. subst i.
    change (7 * 4 =? 28) with true in G. apply Z.ltb_ge in Hb.
    simpl in G. apply Z.ltb_ge in G. lia.
  - simpl. intros H.
    assert (Hs : 7 * i <> 28) by lia.
    unfold uint8 in H.
    rewrite (Z.mod_small (7 * i + 7)) in H by (change (2 ^ 8) with 256; lia).
    replace (7 * i + 7) with (7 * (i + 1)) in H by lia.
    apply IH in H as (cs & b' & w' & Hy & Hc & Hlen & Hb'); try lia.
    exists (b :: cs), b', w'. repeat split.
    + simpl. econstructor; eassumption.
    + constructor; [|assumption]. unfold continuation. apply Z.ltb_ge in Hb. lia.
    + simpl length. lia.
    + assumption.
Qed.

End Overflow.

(** X2. The decoder reports "string length overflows a 32-bit integer" with
    the empty string only when the stream delivered four continuation bytes
    and then a fifth byte greater than [0x0f]. *)
Theorem overflow_only_from_fifth_byte {W : Type} {T : Transport W}
    (w : W) (tr : list event) :
  fst (read_string (mkState w tr)) =
  (""%string, Some (errors_New "string length overflows a 32-bit integer")) ->
  exists cs b w',
    yields w (cs ++ [b]) w' /\ length cs = 4%nat
    /\ Forall continuation cs /\ 0x0f < byte_Z b.
Proof.
  intros H. unfold read_string in H. change (0, 0) with (0, 7 * 0) in H.
  apply for_range_overflow_only in H as (cs & b & w' & Hy & Hc & Hlen & Hb);
    try lia.
  exists cs, b, w'. repeat split; try assumption. lia.
Qed.

Lemma overflow_only_from_fifth_byte_witness :
  exists cs b w',
    yields (mem.serving [x80; x81; x82; x83; x10]) (cs ++ [b]) w'
    /\ length cs = 4%nat /\ Forall continuation cs /\ 0x0f < byte_Z b.
Proof.
  apply (overflow_only_from_fifth_byte
           (mem.serving [x80; x81; x82; x83; x10]) []).
  reflexivity.
Defined.

(** X3. In the length loop only the sentinel [io.EOF] is replaced: any other
    error of [ReadByte], at any iteration, is returned as it is, wrapped with
    "failed to read string length byte". *)
Theorem length_byte_error_kept {W : Type} {T : Transport W}
    (bs : list byte) (b : byte) (e : error) (w w1 w2 : W) (tr : list event) :
  yields w bs w1 -> Forall continuation bs -> (length bs <= 4)%nat ->
  ReadByte w1 = ((b, Some e), w2) ->
  e <> io_EOF ->
  read_string (mkState w tr) =
  ((""%string, Some (fmt_Errorf "failed to read string length byte" e)),
   mkState w2 (tr ++ length_trace (S (length bs)))).
Proof.
  intros Hy Hc Hlen E Hne.
  destruct (for_range_continuations bs (5 - length bs) 0 0 w w1 tr
              length_overflow Hy Hc) as [x' Hx']; [lia | lia |].
  replace (length bs + (5 - length bs))%nat with 5%nat in Hx' by lia.
  unfold read_string. change (0, 0) with (0, 7 * 0). rewrite Hx'.
  destruct (5 - length bs)%nat as [|n] eqn:Hn; [lia|].
  rewrite for_range_S, (length_step_failed _ _ _ _ _ _ _ _ E).
  assert (Hk : is_EOF e = false) by (destruct e; simpl; congruence).
  rewrite Hk, andb_false_r, <- app_assoc.
  replace (S (length bs)) with (length bs + 1)%nat by lia.
  rewrite length_trace_app. reflexivity.
Qed.

Lemma length_byte_error_kept_witness :
  read_string (mkState [inl x80; inr (errors_New "context canceled")] []) =
  ((""%string,
    Some (fmt_Errorf "failed to read string length byte"
                     (errors_New "context canceled"))),
   mkState ([] : script.conn) (length_trace 2)).
Proof.
  apply (length_byte_error_kept [x80] x00 (errors_New "context canceled")
           [inl x80; inr (errors_New "context canceled")]
           [inr (errors_New "context canceled")] ([] : script.conn) []).
  - repeat econstructor.
  - repeat constructor; unfold continuation; by_eval.
  - simpl. lia.
  - reflexivity.
  - discriminate.
Defined.

(** ** The length stays within 32 bits *)

Lemma lor_uint32_range (a b : Z) :
  0 <= a < 2 ^ 32 -> 0 <= Z.lor a (uint32 b) < 2 ^ 32.
Proof.
  intros Ha.
  assert (Hb : 0 <= uint32 b < 2 ^ 32) by (apply Z.mod_pos_bound; lia).
  split; [apply Z.lor_nonneg; lia|].
  destruct (Z.eq_dec (Z.lor a (uint32 b)) 0) as [->|Hnz]; [lia|].
  apply Z.log2_lt_pow2; [pose proof (Z.lor_nonneg a (uint32 b)); lia|].
  rewrite Z.log2_lor by lia.
  apply Z.max_lub_lt.
  - destruct (Z.eq_dec a 0) as [->|]; [simpl; lia|]. apply Z.log2_lt_pow2; lia.
  - destruct (Z.eq_dec (uint32 b) 0) as [->|]; [simpl; lia|].
    apply Z.log2_lt_pow2; lia.
Qed.

Section Bounds.

Context {W : Type} {T : Transport W}.

Lemma for_range_read_bound (n : nat) :
  forall i x s (st : state W) len,
    0 <= x < 2 ^ 32 ->
    In (ERead len)
       (trace (snd (for_range n i length_step length_overflow (x, s) st))) ->
    In (ERead len) (trace st) \/ Z.of_nat len < 2 ^ 32.
Proof.
  induction n as [|n IH]; intros i x s st len Hx; [simpl; auto|].
  rewrite for_range_S.
  destruct (ReadByte (world st)) as [[b err] w1] eqn:E.
  rewrite (length_step_cases i x s st b err w1 E). cbv zeta.
  assert (Hstep : forall tr0, In (ERead len) (tr0 ++ length_trace 1) ->
                              In (ERead len) tr0).
  { intros tr0 H. apply in_app_or in H as [H|H]; [assumption|].
    simpl in H. destruct H as [H|[H|[]]]; discriminate. }
  destruct err as [e|]; [simpl; auto|].
  destruct ((s =? 28) && (15 <? byte_Z b)); [simpl; auto|].
  destruct (byte_Z b <? 128).
  - match goal with
    | |- context [read_string_bytes ?y ?st0] =>
      pose proof (read_string_bytes_trace y st0) as Htr;
        pose proof (lor_uint32_range x (Z.shiftl (byte_Z b) s) Hx) as Hy;
        destruct (read_string_bytes y st0) as [a st2]
    end.
    simpl in *. rewrite Htr. intros H.
    apply in_app_or in H as [H|H]; [left; auto|].
    right. unfold body_trace in H. simpl in H.
    destruct H as [H|[H|[]]]; [discriminate|].
    inversion H. subst len. rewrite Z2Nat.id; lia.
  - intros H. apply IH in H; [|apply lor_uint32_range; assumption].
    simpl in H. destruct H as [H|H]; auto.
Qed.

End Bounds.

(** X4. The buffer of the body read never has more than [2^32 - 1] bytes:
    every [Read] the decoder issues is for a length below [2^32], whatever
    the stream delivers. *)
Theorem body_length_fits_uint32 {W : Type} {T : Transport W}
    (w : W) (len : nat) :
  In (ERead len) (trace (snd (read_string (mkState w [])))) ->
  Z.of_nat len < 2 ^ 32.
Proof.
  intros H. unfold read_string in H.
  apply for_range_read_bound in H; [|change (2 ^ 32) with 4294967296; lia].
  destruct H as [[]|H]. assumption.
Qed.

Lemma body_length_fits_uint32_witness :
  In (ERead 3)
     (trace (snd (read_string (mkState (mem.serving [x03; x61; x62; x63]) []))))
  /\ Z.of_nat 3 < 2 ^ 32.
Proof.
  assert (H : In (ERead 3)
                 (trace (snd (read_string
                                (mkState (mem.serving [x03; x61; x62; x63]) [])))))
    by (right; right; right; left; reflexivity).
  split; [exact H|].
  exact (body_length_fits_uint32 (mem.serving [x03; x61; x62; x63]) 3 H).
Defined.

(** ** The string returned *)

Lemma length_string_of_bytes (buf : list byte) :
  String.length (string_of_bytes buf) = length buf.
Proof.
  unfold string_of_bytes, string_of_list_byte.
  induction buf as [|b buf IH]; simpl; [reflexivity | now rewrite IH].
Qed.

Lemma bytes_of_string_of_bytes (buf : list byte) :
  list_byte_of_string (string_of_bytes buf) = buf.
Proof.
  unfold string_of_bytes. apply list_byte_of_string_of_list_byte.
Qed.

Lemma skipn_zeroes (k n : nat) :
  skipn k (repeat x00 n) = repeat x00 (n - k).
Proof.
  revert n. induction k as [|k IH]; intros n.
  - now rewrite Nat.sub_0_r.
  - destruct n as [|n]; [reflexivity | apply IH].
Qed.

(** X5. Whenever the body [Read] reports no error, the string returned (with
    or without the UTF-8 error) has exactly the decoded length [x], however
    many bytes the call stored: what was not stored stays zero. *)
Theorem returned_string_has_decoded_length {W : Type} {T : Transport W}
    (x : Z) (data : list byte) (n : Z) (w w' : W) (tr : list event) :
  Read (Z.to_nat x) w = ((data, n, None), w') ->
  String.length (fst (fst (read_string_bytes x (mkState w tr)))) = Z.to_nat x
  /\ list_byte_of_string (fst (fst (read_string_bytes x (mkState w tr))))
     = firstn (Z.to_nat x) data ++ repeat x00 (Z.to_nat x - length data).
Proof.
  intros E. rewrite (read_string_bytes_run _ _ _ _ _ _ _ E). cbv zeta.
  assert (Hc : copy (make_bytes x) data
               = firstn (Z.to_nat x) data ++ repeat x00 (Z.to_nat x - length data)).
  { unfold copy. rewrite length_make_bytes. f_equal.
    unfold make_bytes. apply skipn_zeroes. }
  destruct (utf8.Valid _); simpl;
    rewrite length_string_of_bytes, bytes_of_string_of_bytes, length_copy,
      length_make_bytes; auto.
Qed.

Lemma returned_string_has_decoded_length_witness :
  String.length (fst (fst (read_string_bytes 3 (mem.start (mem.serving [x61])))))
  = 3%nat.
Proof.
  assert (E : Read (Z.to_nat 3) (mem.serving [x61])
              = (([x61], 1, None), mem.serving [])) by reflexivity.
  exact (proj1 (returned_string_has_decoded_length 3 [x61] 1 _ _ [] E)).
Defined.

Section Success.

Context {W : Type} {T : Transport W}.

Lemma for_range_success (n : nat) :
  forall i xs (st : state W),
    success_shape (fst (for_range n i length_step length_overflow xs st)).
Proof.
  induction n as [|n IH]; intros i [x s] st; [discriminate|].
  rewrite for_range_S.
  destruct (ReadByte (world st)) as [[b err] w1] eqn:E.
  rewrite (length_step_cases i x s st b err w1 E). cbv zeta.
  destruct err as [e|]; [discriminate|].
  destruct ((s =? 28) && (15 <? byte_Z b)); [discriminate|].
  destruct (byte_Z b <? 128); [|apply IH].
  match goal with
  | |- context [read_string_bytes ?y ?st0] =>
    destruct st0 as [w0 tr0];
      destruct (Read (Z.to_nat y) w0) as [[[data n0] rerr] w2] eqn:ER;
      rewrite (read_string_bytes_run y w0 tr0 data n0 rerr w2 ER)
  end.
  cbv zeta. destruct rerr as [e|]; [discriminate|].
  destruct (utf8.Valid _) eqn:Hv; [|discriminate].
  intros _. eexists. split; [reflexivity | exact Hv].
Qed.

Lemma decode_start_world (st : state W) :
  world (decode_start st)
  = snd (WriterClose (snd (Invoke instance_name func_name (world st)))).
Proof.
  unfold decode_start, close_writer, bind, call, slog, ret.
  destruct (Invoke instance_name func_name (world st)) as [ierr w1]. simpl.
  destruct (WriterClose w1) as [[e|] w2]; reflexivity.
Qed.

End Success.

(** ** [Hello] as a whole *)

(** X6. When [Hello] returns no error, [Invoke] had succeeded and the string
    returned is valid UTF-8. *)
Theorem nil_error_means_valid_utf8 {W : Type} {T : Transport W} (st : state W) :
  snd (fst (Hello st)) = None ->
  fst (Invoke instance_name func_name (world st)) = None
  /\ utf8.Valid (list_byte_of_string (fst (fst (Hello st)))) = true.
Proof.
  rewrite Hello_run.
  destruct (fst (Invoke instance_name func_name (world st))) as [e|];
    [discriminate|].
  simpl fst. intros H. split; [reflexivity|].
  pose proof (for_range_success 5 0 (0, 0) (decode_start st)) as Hs.
  fold (read_string (T:=T)) in Hs. unfold success_shape in Hs.
  unfold wrap_result in *.
  destruct (fst (read_string (decode_start st))) as [s [e|]]; simpl in *;
    [discriminate|].
  destruct (Hs eq_refl) as (buf & -> & Hv).
  now rewrite bytes_of_string_of_bytes.
Qed.

Lemma nil_error_means_valid_utf8_witness :
  utf8.Valid (list_byte_of_string
                (fst (fst (Hello (mem.start (mem.serving [x02; xc3; xa9]))))))
  = true.
Proof.
  assert (H : snd (fst (Hello (mem.start (mem.serving [x02; xc3; xa9])))) = None)
    by reflexivity.
  exact (proj2 (nil_error_means_valid_utf8 _ H)).
Defined.

(** X7. End to end: when [Invoke] succeeds and the incoming stream delivers
    an accepted length prefix and then, in one [Read] without error, that
    many bytes of valid UTF-8, [Hello] returns those bytes as a string and
    no error, whatever the two [Close] calls return, and leaves the outside
    as the [Close] of the incoming stream left it. *)
Theorem Hello_decodes_string {W : Type} {T : Transport W}
    (st : state W) (cerr : option error) (cs : list byte) (b : byte)
    (data : list byte) (n : Z) (w1 w2 w3 w4 : W) :
  Invoke instance_name func_name (world st) = (None, w1) ->
  WriterClose w1 = (cerr, w2) ->
  yields w2 (cs ++ [b]) w3 ->
  Forall continuation cs -> (length cs <= 4)%nat ->
  byte_Z b < 0x80 -> (length cs = 4%nat -> byte_Z b <= 0x0f) ->
  Read (Z.to_nat (varint_value (cs ++ [b]))) w3 = ((data, n, None), w4) ->
  length data = Z.to_nat (varint_value (cs ++ [b])) ->
  utf8.Valid data = true ->
  fst (Hello st) = (string_of_bytes data, None)
  /\ world (snd (Hello st)) = snd (ReaderClose w4).
Proof.
  intros Hinv Hwc Hy Hc Hlen Hb H15 HR Hd Hv.
  rewrite Hello_run, Hinv. simpl fst. simpl snd.
  pose proof (decode_start_world st) as Hw. rewrite Hinv in Hw. simpl in Hw.
  rewrite Hwc in Hw. simpl in Hw.
  destruct (decode_start st) as [w tr]. simpl in Hw. subst w.
  rewrite (length_prefix_value cs b w2 w3 tr Hy Hc Hlen Hb H15).
  rewrite (read_string_bytes_run _ _ _ _ _ _ _ HR). cbv zeta.
  rewrite copy_full by (now rewrite length_make_bytes).
  rewrite Hv. simpl. split; [reflexivity|].
  unfold close_reader, bind, call, slog, ret. simpl.
  destruct (ReaderClose w4) as [[e|] w5]; reflexivity.
Qed.

Lemma Hello_decodes_string_witness :
  fst (Hello (mkState (mem.mkConn None (Some (errors_New "closed")) None
                                  [x02; xc3; xa9]) []))
  = (string_of_bytes [xc3; xa9], None).
Proof.
  eapply (fun H1 H2 H3 H4 H5 H6 H7 H8 H9 H10 =>
            proj1 (Hello_decodes_string
                     (mkState (mem.mkConn None (Some (errors_New "closed")) None
                                          [x02; xc3; xa9]) [])
                     (Some (errors_New "closed")) [] x02 [xc3; xa9] 2
                     _
                     (mem.mkConn None (Some (errors_New "closed")) None
                                 [x02; xc3; xa9])
                     (mem.mkConn None (Some (errors_New "closed")) None
                                 [xc3; xa9])
                     (mem.mkConn None (Some (errors_New "closed")) None [])
                     H1 H2 H3 H4 H5 H6 H7 H8 H9 H10)).
  - reflexivity.
  - reflexivity.
  - repeat econstructor.
  - constructor.
  - simpl. lia.
  - by_eval.
  - discriminate.
  - reflexivity.
  - reflexivity.
  - reflexivity.
Defined.

(** X8. When [Invoke] fails, [Hello] returns the empty string and the error
    wrapped with "failed to invoke `hello`", and calls nothing else: no
    stream is closed or read and nothing is logged. *)
Theorem Hello_invoke_failure {W : Type} {T : Transport W}
    (st : state W) (e : error) (w1 : W) :
  Invoke instance_name func_name (world st) = (Some e, w1) ->
  Hello st =
  ((""%string, Some (fmt_Errorf "failed to invoke `hello`" e)),
   mkState w1 (trace st ++ [EInvoke "wrpc-examples:hello/handler" "hello"])).
Proof.
  intros E. rewrite Hello_run, E. simpl fst.
  unfold call. rewrite E. reflexivity.
Qed.

Lemma Hello_invoke_failure_witness :
  Hello (mkState (mem.mkConn (Some (errors_New "no responders")) None None
                             [x00]) [])
  = ((""%string,
      Some (fmt_Errorf "failed to invoke `hello`" (errors_New "no responders"))),
     mkState (mem.mkConn (Some (errors_New "no responders")) None None [x00])
             [EInvoke "wrpc-examples:hello/handler" "hello"]).
Proof.
  apply (Hello_invoke_failure
           (mkState (mem.mkConn (Some (errors_New "no responders")) None None
                                [x00]) [])
           (errors_New "no responders")).
  reflexivity.
Defined.

(** ** The order of the calls *)

Section Order.

Context {W : Type} {T : Transport W}.

(** The decoder makes one to [n + 1] [ReadByte] calls and then at most one
    [Read]. *)
Lemma for_range_trace_shape (n : nat) :
  forall i xs (st : state W),
  exists k tail,
    (1 <= k <= S n)%nat
    /\ (tail = [] \/ exists len, tail = body_trace len)
    /\ trace (snd (for_range (S n) i length_step length_overflow xs st))
       = trace st ++ length_trace k ++ tail.
Proof.
  induction n as [|n IH]; intros i [x s] st;
    rewrite for_range_S;
    destruct (ReadByte (world st)) as [[b err] w1] eqn:E;
    rewrite (length_step_cases i x s st b err w1 E); cbv zeta;
    (destruct err as [e|];
     [exists 1%nat, []; simpl; rewrite ?app_nil_r; repeat split; auto; lia|]);
    (destruct ((s =? 28) && (15 <? byte_Z b));
     [exists 1%nat, []; simpl; rewrite ?app_nil_r; repeat split; auto; lia|]);
    (destruct (byte_Z b <? 128);
     [ match goal with
       | |- context [read_string_bytes ?y ?st0] =>
         pose proof (read_string_bytes_trace y st0) as Htr;
           destruct (read_string_bytes y st0) as [a st2];
           exists 1%nat, (body_trace (Z.to_nat y))
       end;
       simpl in *; rewrite Htr, <- app_assoc;
       repeat split; eauto; lia |]).
  - exists 1%nat, []. simpl. rewrite ?app_nil_r. repeat split; auto.
  - match goal with
    | |- context [for_range (S n) ?j _ _ ?xs' ?st1] =>
      destruct (IH j xs' st1) as (k & tail & Hk & Ht & Htr)
    end.
    exists (S k), tail. rewrite Htr. simpl trace.
    rewrite <- app_assoc. repeat split; auto; lia.
Qed.

(** Neither the result of the decoder nor what it does to the outside
    depends on what has been traced and logged so far. *)
Lemma read_string_bytes_any_trace x (w : W) tr tr' :
  fst (read_string_bytes x (mkState w tr)) = fst (read_string_bytes x (mkState w tr'))
  /\ world (snd (read_string_bytes x (mkState w tr)))
     = world (snd (read_string_bytes x (mkState w tr'))).
Proof.
  destruct (Read (Z.to_nat x) w) as [[[data n] err] w'] eqn:E.
  rewrite !(read_string_bytes_run _ _ _ _ _ _ _ E). split; reflexivity.
Qed.

Lemma for_range_any_trace (n : nat) :
  forall i xs (w : W) tr tr',
    fst (for_range n i length_step length_overflow xs (mkState w tr))
    = fst (for_range n i length_step length_overflow xs (mkState w tr')).
Proof.
  induction n as [|n IH]; intros i [x s] w tr tr'; [reflexivity|].
  rewrite !for_range_S.
  destruct (ReadByte w) as [[b err] w1] eqn:E.
  rewrite (length_step_cases i x s (mkState w tr) b err w1 E).
  rewrite (length_step_cases i x s (mkState w tr') b err w1 E). cbv zeta.
  destruct err as [e|]; [reflexivity|].
  destruct ((s =? 28) && (15 <? byte_Z b)); [reflexivity|].
  destruct (byte_Z b <? 128); [|apply IH].
  simpl trace. simpl world.
  match goal with
  | |- context [read_string_bytes ?y (mkState w1 ?t1)] =>
    match goal with
    | |- context [read_string_bytes y (mkState w1 ?t2)] =>
      lazymatch t1 with
      | t2 => fail
      | _ => destruct (read_string_bytes_any_trace y w1 t1 t2) as [Hf _]
      end
    end
  end.
  do 2 destruct (read_string_bytes _ _). simpl in *. assumption.
Qed.

End Order.

(** X9. When [Invoke] succeeds, [Hello] calls, in this order: [Invoke];
    [Close] on the outgoing stream (a failure is logged at debug level);
    one to five [ReadByte]; at most one [Read]; and last [Close] on the
    incoming stream (a failure is logged at error level).  So the outgoing
    stream is closed before anything is read, and nothing is read after the
    incoming stream is closed. *)
Theorem Hello_call_order {W : Type} {T : Transport W} (st : state W) :
  fst (Invoke instance_name func_name (world st)) = None ->
  exists k tail,
    (1 <= k <= 5)%nat
    /\ (tail = []
        \/ exists len, tail = [ELog LevelDebug "reading string bytes"; ERead len])
    /\ trace (snd (Hello st))
       = trace st
         ++ [EInvoke "wrpc-examples:hello/handler" "hello"; EWriterClose]
         ++ logged (fst (WriterClose
                           (snd (Invoke instance_name func_name (world st)))))
                   LevelDebug "failed to close outgoing stream"
         ++ length_trace k ++ tail
         ++ [EReaderClose]
         ++ logged (fst (ReaderClose
                           (world (snd (read_string (decode_start st))))))
                   LevelError "failed to close reader".
Proof.
  intros Hinv. rewrite Hello_run, Hinv. simpl snd.
  destruct (for_range_trace_shape 4 0 (0, 0) (decode_start st))
    as (k & tail & Hk & Ht & Htr).
  fold (read_string (T:=T)) in Htr.
  exists k, tail. split; [assumption|]. split; [exact Ht|].
  assert (Hs : trace (decode_start st)
               = trace st
                 ++ [EInvoke "wrpc-examples:hello/handler" "hello"; EWriterClose]
                 ++ logged (fst (WriterClose
                       (snd (Invoke instance_name func_name (world st)))))
                     LevelDebug "failed to close outgoing stream").
  { unfold decode_start, close_writer, bind, call, slog, ret.
    destruct (Invoke instance_name func_name (world st)) as [ierr w1]. simpl.
    destruct (WriterClose w1) as [[e|] w2]; simpl;
      rewrite <- ?app_assoc; reflexivity. }
  unfold close_reader, bind, call, slog, ret.
  destruct (ReaderClose _) as [[e|] w5]; simpl;
    rewrite Htr, Hs; repeat rewrite <- app_assoc; simpl;
    repeat rewrite <- app_assoc; reflexivity.
Qed.

Lemma Hello_call_order_witness :
  exists k tail,
    (1 <= k <= 5)%nat
    /\ (tail = []
        \/ exists len, tail = [ELog LevelDebug "reading string bytes"; ERead len])
    /\ trace (snd (Hello (mkState
         (mem.mkConn None (Some (errors_New "closed")) None [x01; x41]) [])))
       = [EInvoke "wrpc-examples:hello/handler" "hello"; EWriterClose;
          ELog LevelDebug "failed to close outgoing stream"]
         ++ length_trace k ++ tail ++ [EReaderClose].
Proof.
  destruct (Hello_call_order
              (mkState (mem.mkConn None (Some (errors_New "closed")) None
                                   [x01; x41]) []))
    as (k & tail & Hk & Ht & Htr); [reflexivity|].
  exists k, tail. split; [exact Hk|]. split; [exact Ht|].
  rewrite Htr. reflexivity.
Defined.

(** X10. What [Close] on the outgoing stream returns is only logged: with
    any other [Close] that leaves the outside in the same state, [Hello]
    returns the same string and error. *)
Theorem writer_close_error_ignored {W : Type} (T : Transport W)
    (c : W -> option error * W) (st : state W) :
  (forall w, snd (c w) = snd (@WriterClose W T w)) ->
  fst (@Hello W (with_WriterClose c T) st) = fst (@Hello W T st).
Proof.
  intros Hc. rewrite !Hello_run.
  change (@Invoke W (with_WriterClose c T)) with (@Invoke W T).
  destruct (fst (Invoke instance_name func_name (world st))); [reflexivity|].
  simpl fst. f_equal.
  change (@read_string W (with_WriterClose c T)) with (@read_string W T).
  pose proof (@decode_start_world W (with_WriterClose c T) st) as H1.
  pose proof (@decode_start_world W T st) as H2.
  change (@Invoke W (with_WriterClose c T)) with (@Invoke W T) in H1.
  change (@WriterClose W (with_WriterClose c T)) with c in H1.
  rewrite Hc, <- H2 in H1.
  destruct (@decode_start W (with_WriterClose c T) st) as [w tr].
  destruct (@decode_start W T st) as [w' tr']. simpl in H1. subst w'.
  unfold read_string. apply for_range_any_trace.
Qed.

Lemma writer_close_error_ignored_witness :
  fst (@Hello mem.conn
         (with_WriterClose (fun w => (Some (errors_New "closed"), w))
                           mem.transport)
         (mem.start (mem.serving [x01; x41])))
  = fst (Hello (mem.start (mem.serving [x01; x41]))).
Proof.
  apply (writer_close_error_ignored mem.transport
           (fun w => (Some (errors_New "closed"), w))).
  intros w. reflexivity.
Defined.
